(** * DragonSwordMapApp: the viewport engine of [src/App.tsx]

    A shallow embedding of the pan/zoom component [App] and the proofs of
    its specification.

    Number model.  The component computes in binary64.  The main embedding
    reads a JavaScript [number] as an exact rational ([Q], compared with
    [==]): the handlers only add, subtract, multiply, divide by the scale,
    compare, take [Math.min]/[Math.max] and round, so every definition
    computes.  What is proved there about comparisons, [Math.min],
    [Math.max], [Math.round] and about which cells a handler writes carries
    over to binary64; an equation that needs an arithmetic law (cancelling a
    division, reassociating a sum) holds in exact arithmetic only.  Module
    [Binary64] embeds the zoom path ([clampPosition],
    [handleWheel], the mount effect) a second time over the kernel's
    binary64 floats, operation for operation, to evaluate the code where
    rounding decides.

    State model.  The four [useState] cells and the [dragStart] ref form one
    record [State].  A handler is a function from the state of the render it
    closes over to the state React commits after it: reads go to the
    snapshot, [setX] calls build the next state.  [containerRef.current] is
    an [option DOMRect]: [None] while the ref is not attached, otherwise the
    rectangle [getBoundingClientRect()] returns.  Every handler measures the
    container anew, so a session pairs each event with the container its
    handler finds ([session]); [reachable] is the special case of a surface
    that never changes. *)

From Stdlib Require Import QArith Qminmax Qround Qabs ZArith Lia Lqa Bool List.
From Stdlib Require Import PrimFloat.
Import ListNotations.

#[local] Set Warnings "-inexact-float".

Local Open Scope Q_scope.

(** ** JavaScript numbers and [Math] *)

Definition number : Type := Q.

Module Math.

Definition min (a b : number) : number := Qmin a b.

Definition max (a b : number) : number := Qmax a b.

(** [Math.round]: nearest integer, a tie going towards plus infinity. *)
Definition round (a : number) : number := inject_Z (Qfloor (a + (1 # 2))).

End Math.

(** ** Constants (lines 6-9) *)

Definition ORIG_WIDTH : number := 3638.
Definition ORIG_HEIGHT : number := 4855.
Definition MIN_SCALE : number := 5 # 10.
Definition MAX_SCALE : number := 15 # 10.

(** ** Data *)

(** The object literals [{ x, y }]. *)
Record Point : Type := mkPoint { x : number; y : number }.

(** What [getBoundingClientRect()] returns, as far as the component reads it. *)
Record DOMRect : Type := mkRect {
  left : number;
  top : number;
  width : number;
  height : number
}.

(** [React.MouseEvent], and [React.WheelEvent] which extends it. *)
Record MouseEvent : Type := mkMouse {
  button : Z;
  clientX : number;
  clientY : number
}.

Record WheelEvent : Type := mkWheel {
  asMouse :> MouseEvent;
  deltaY : number
}.

(** The hooks of lines 12-16. *)
Record State : Type := mkState {
  scale : number;
  position : Point;
  mouseCoords : Point;
  isDragging : bool;
  dragStart : Point
}.

Definition initialState : State :=
  {| scale := 8 # 10;
     position := mkPoint 0 0;
     mouseCoords := mkPoint 0 0;
     isDragging := false;
     dragStart := mkPoint 0 0 |}.

(** State setters: each replaces one cell of the pending state. *)

Definition setScale (v : number) (st : State) : State :=
  {| scale := v; position := position st; mouseCoords := mouseCoords st;
     isDragging := isDragging st; dragStart := dragStart st |}.

Definition setPosition (v : Point) (st : State) : State :=
  {| scale := scale st; position := v; mouseCoords := mouseCoords st;
     isDragging := isDragging st; dragStart := dragStart st |}.

Definition setMouseCoords (v : Point) (st : State) : State :=
  {| scale := scale st; position := position st; mouseCoords := v;
     isDragging := isDragging st; dragStart := dragStart st |}.

Definition setIsDragging (v : bool) (st : State) : State :=
  {| scale := scale st; position := position st; mouseCoords := mouseCoords st;
     isDragging := v; dragStart := dragStart st |}.

Definition setDragStart (v : Point) (st : State) : State :=
  {| scale := scale st; position := position st; mouseCoords := mouseCoords st;
     isDragging := isDragging st; dragStart := v |}.

(** Numeric equality of points and of the numeric part of states. *)

Definition Point_eq (p q : Point) : Prop := x p == x q /\ y p == y q.

Infix "=.=" := Point_eq (at level 70, no associativity).

(** ** [clampPosition] (lines 21-47) *)

Definition clampPosition (containerRef : option DOMRect)
    (newX newY currentScale : number) : Point :=
  match containerRef with
  | None => {| x := newX; y := newY |}
  | Some rect =>
      let vW := width rect in
      let vH := height rect in
      let mapW := ORIG_WIDTH * currentScale in
      let mapH := ORIG_HEIGHT * currentScale in
      let minX := vW - mapW in
      let maxX := 0 in
      let minY := vH - mapH in
      let maxY := 0 in
      let minX' := if Qlt_le_dec mapW vW then (vW - mapW) / 2 else minX in
      let maxX' := if Qlt_le_dec mapW vW then minX' else maxX in
      let minY' := if Qlt_le_dec mapH vH then (vH - mapH) / 2 else minY in
      let maxY' := if Qlt_le_dec mapH vH then minY' else maxY in
      let clampedX := Math.min (Math.max newX minX') maxX' in
      let clampedY := Math.min (Math.max newY minY') maxY' in
      {| x := clampedX; y := clampedY |}
  end.

(** ** [handleWheel] (lines 50-72) *)

(** Line 52: the signed step. *)
Definition wheelDelta (e : WheelEvent) : number :=
  if Qlt_le_dec 0 (deltaY e) then - (1 # 10) else 1 # 10.

(** Line 53: the scale the wheel event asks for, clamped to the range. *)
Definition wheelScale (st : State) (e : WheelEvent) : number :=
  Math.min (Math.max (scale st + wheelDelta e) MIN_SCALE) MAX_SCALE.

(** Lines 60-61 and 86-87: the pointer relative to the container. *)
Definition localPos (rect : DOMRect) (e : MouseEvent) : Point :=
  {| x := clientX e - left rect; y := clientY e - top rect |}.

(** Lines 63-64 and 89-90: the image point below a container position. *)
Definition imagePoint (m offset : Point) (s : number) : Point :=
  {| x := (x m - x offset) / s; y := (y m - y offset) / s |}.

(** Lines 66-67: the offset that keeps [pt] below [m] at scale [newScale]. *)
Definition wheelNext (m pt : Point) (newScale : number) : Point :=
  {| x := x m - x pt * newScale; y := y m - y pt * newScale |}.

Definition handleWheel (containerRef : option DOMRect) (st : State)
    (e : WheelEvent) : State :=
  let newScale := wheelScale st e in
  if Qeq_dec newScale (scale st) then st
  else
    match containerRef with
    | None => st
    | Some rect =>
        let m := localPos rect e in
        let pt := imagePoint m (position st) (scale st) in
        let next := wheelNext m pt newScale in
        let clamped := clampPosition containerRef (x next) (y next) newScale in
        setPosition clamped (setScale newScale st)
    end.

(** ** [handleMouseDown], [handleMouseMove], [handleMouseUp] (lines 75-111) *)

Definition handleMouseDown (st : State) (e : MouseEvent) : State :=
  if negb (Z.eqb (button e) 0) then st
  else
    setDragStart
      {| x := clientX e - x (position st); y := clientY e - y (position st) |}
      (setIsDragging true st).

(** Lines 89-99: the coordinate published for container position [m]. *)
Definition reportCoords (m offset : Point) (s : number) : Point :=
  let img := imagePoint m offset s in
  let displayX := Math.round (x img) in
  let displayY := Math.round (ORIG_HEIGHT - y img) in
  {| x := Math.min (Math.max displayX 0) ORIG_WIDTH;
     y := Math.min (Math.max displayY 0) ORIG_HEIGHT |}.

(** Lines 103-104: the offset a drag asks for. *)
Definition dragNext (st : State) (e : MouseEvent) : Point :=
  {| x := clientX e - x (dragStart st); y := clientY e - y (dragStart st) |}.

Definition handleMouseMove (containerRef : option DOMRect) (st : State)
    (e : MouseEvent) : State :=
  match containerRef with
  | None => st
  | Some rect =>
      let m := localPos rect e in
      let st1 := setMouseCoords (reportCoords m (position st) (scale st)) st in
      if negb (isDragging st) then st1
      else
        let next := dragNext st e in
        setPosition (clampPosition containerRef (x next) (y next) (scale st)) st1
  end.

Definition handleMouseUp (st : State) : State := setIsDragging false st.

(** ** The mount effect (lines 114-123) and [onLoad] (lines 160-162) *)

(** Lines 118-119: the offset that centres the image at scale [s]. *)
Definition centerOffset (rect : DOMRect) (s : number) : Point :=
  {| x := (width rect - ORIG_WIDTH * s) / 2;
     y := (height rect - ORIG_HEIGHT * s) / 2 |}.

Definition mountEffect (containerRef : option DOMRect) (st : State) : State :=
  match containerRef with
  | Some rect =>
      let initialScale := 8 # 10 in
      let initial := centerOffset rect initialScale in
      setPosition
        (clampPosition containerRef (x initial) (y initial) initialScale)
        (setScale initialScale st)
  | None => st
  end.

(** [setPosition(prev => clampPosition(prev.x, prev.y, scale))]. *)
Definition onLoad (containerRef : option DOMRect) (st : State) : State :=
  let prev := position st in
  setPosition (clampPosition containerRef (x prev) (y prev) (scale st)) st.

(** ** The events of the component and their dispatch (lines 129-133, 160) *)

Inductive Event : Type :=
| Wheel (e : WheelEvent)
| MouseDown (e : MouseEvent)
| MouseMove (e : MouseEvent)
| MouseUp
| MouseLeave
| Load.

Definition dispatch (containerRef : option DOMRect) (st : State)
    (ev : Event) : State :=
  match ev with
  | Wheel e => handleWheel containerRef st e
  | MouseDown e => handleMouseDown st e
  | MouseMove e => handleMouseMove containerRef st e
  | MouseUp => handleMouseUp st
  | MouseLeave => handleMouseUp st
  | Load => onLoad containerRef st
  end.

(** A run: the mount effect, then the events in dispatch order. *)
Definition run (containerRef : option DOMRect) (evs : list Event) : State :=
  fold_left (dispatch containerRef) evs (mountEffect containerRef initialState).

(** The states of a session on a fixed display surface. *)
Inductive reachable (containerRef : option DOMRect) : State -> Prop :=
| reachable_mount :
    reachable containerRef (mountEffect containerRef initialState)
| reachable_step (st : State) (ev : Event) :
    reachable containerRef st ->
    reachable containerRef (dispatch containerRef st ev).

(** ** Sessions on a surface that may change *)

(** Whether the handler of [ev], finding the container [c] in state [st],
    commits an offset clamped for a measured surface.  With the container
    absent the wheel and move handlers return early and [onLoad] commits the
    offset it holds, unchanged. *)
Definition writesOffset (c : option DOMRect) (st : State) (ev : Event) : bool :=
  match c with
  | None => false
  | Some _ =>
      match ev with
      | Wheel e => if Qeq_dec (wheelScale st e) (scale st) then false else true
      | MouseMove _ => isDragging st
      | Load => true
      | MouseDown _ | MouseUp | MouseLeave => false
      end
  end.

(** One event of a session: the next state, and the container measured by
    the last handler that wrote the offset. *)
Definition measured (acc : State * option DOMRect)
    (ce : option DOMRect * Event) : State * option DOMRect :=
  (dispatch (fst ce) (fst acc) (snd ce),
   if writesOffset (fst ce) (fst acc) (snd ce) then fst ce else snd acc).

Definition session (mounted : option DOMRect)
    (evs : list (option DOMRect * Event)) : State * option DOMRect :=
  fold_left measured evs (mountEffect mounted initialState, mounted).

(** ** The specification's own wording, for comparison *)

(** Section 4.1, "clamp candidate into that range". *)
Definition spec_clamp_range (lo hi v : number) : number :=
  if Qlt_le_dec v lo then lo else if Qlt_le_dec hi v then hi else v.

(** Section 4.1, one axis: [contentSize = imageSize * scale]. *)
Definition spec_clamp_axis (imageSize viewSize s candidate : number) : number :=
  let contentSize := imageSize * s in
  if Qlt_le_dec contentSize viewSize
  then (viewSize - contentSize) / 2
  else spec_clamp_range (viewSize - contentSize) 0 candidate.


(** ** The state invariant of section 3 *)

Definition scale_in_range (st : State) : Prop :=
  MIN_SCALE <= scale st /\ scale st <= MAX_SCALE.

Definition offset_clamped (containerRef : option DOMRect) (st : State) : Prop :=
  clampPosition containerRef (x (position st)) (y (position st)) (scale st)
  =.= position st.

Definition invariant (containerRef : option DOMRect) (st : State) : Prop :=
  scale_in_range st /\ offset_clamped containerRef st.

(** Section 4.5: the recentring routine, the centred offset passed through
    the clamp. *)
Definition spec_recenter (rect : DOMRect) (s : number) : Point :=
  let centred := centerOffset rect s in
  clampPosition (Some rect) (x centred) (y centred) s.

(** ** The scenarios of section 8 *)

(** A 1000 x 800 surface at the page origin, and one of size zero. *)
Definition surface : DOMRect := mkRect 0 0 1000 800.
Definition zeroSurface : DOMRect := mkRect 0 0 0 0.

(** A surface wider than the image at the initial scale (2910.4). *)
Definition wideSurface : DOMRect := mkRect 0 0 4000 800.

Definition pointerAt (cx cy : number) : MouseEvent := mkMouse 0 cx cy.
Definition notchIn (cx cy : number) : WheelEvent := mkWheel (pointerAt cx cy) (-100).
Definition notchOut (cx cy : number) : WheelEvent := mkWheel (pointerAt cx cy) 100.

(** Scenario A: the state after mount on [surface]. *)
Definition scenarioA : State := run (Some surface) [].

(** Scenario D up to the pointer-down, and after the move. *)
Definition scenarioD_down : State :=
  run (Some surface) [MouseDown (pointerAt 500 400)].
Definition scenarioD : State :=
  run (Some surface) [MouseDown (pointerAt 500 400); MouseMove (pointerAt 520 380)].

(** Eight notches of zooming in from Scenario A. *)
Definition zoomedIn : State :=
  run (Some surface) (repeat (Wheel (notchIn 500 400)) 8).

(** What a published coordinate looks like: a point of the integer grid
    within the image's bounds. *)
Definition published (p : Point) : Prop :=
  (0 <= x p <= ORIG_WIDTH /\ 0 <= y p <= ORIG_HEIGHT)
  /\ exists i j, p =.= {| x := inject_Z i; y := inject_Z j |}.

(** ** The drag machine of section 4.3, on events alone *)

(** Idle is [false], Dragging is [true]: a primary press starts a drag, a
    release or a leave ends it, nothing else changes the state. *)
Definition spec_drag (dragging : bool) (ev : Event) : bool :=
  match ev with
  | MouseDown e => if Z.eqb (button e) 0 then true else dragging
  | MouseUp | MouseLeave => false
  | Wheel _ | MouseMove _ | Load => dragging
  end.

(** The events that neither start nor end a drag. *)
Definition keepsDrag (ev : Event) : bool :=
  match ev with
  | MouseDown e => negb (Z.eqb (button e) 0)
  | MouseUp | MouseLeave => false
  | Wheel _ | MouseMove _ | Load => true
  end.

(** * The zoom path in binary64 *)

(** [clampPosition], [handleWheel] and the mount effect once more, with the
    kernel's binary64 numbers and their IEEE 754 operations in place of the
    rationals.  The definitions follow the same source lines as those above,
    operation for operation. *)

Module Binary64.

Local Open Scope float_scope.

Definition number : Set := float.

Module Math.

(** [Math.max]: [NaN] if either argument is; of two zeros the positive one. *)
Definition max (a b : number) : number :=
  if is_nan a || is_nan b then nan
  else if a <? b then b
  else if b <? a then a
  else if get_sign a then b else a.

(** [Math.min]: [NaN] if either argument is; of two zeros the negative one. *)
Definition min (a b : number) : number :=
  if is_nan a || is_nan b then nan
  else if a <? b then a
  else if b <? a then b
  else if get_sign a then a else b.

End Math.

Definition ORIG_WIDTH : number := 3638.
Definition ORIG_HEIGHT : number := 4855.
Definition MIN_SCALE : number := 0.5.
Definition MAX_SCALE : number := 1.5.

Record Point : Set := mkPoint { x : number; y : number }.

Record DOMRect : Set := mkRect {
  left : number;
  top : number;
  width : number;
  height : number
}.

(** The fields of [React.WheelEvent] that [handleWheel] reads. *)
Record WheelEvent : Set := mkWheel {
  deltaY : number;
  clientX : number;
  clientY : number
}.

Record State : Set := mkState {
  scale : number;
  position : Point;
  mouseCoords : Point;
  isDragging : bool;
  dragStart : Point
}.

Definition initialState : State :=
  {| scale := 0.8;
     position := mkPoint 0 0;
     mouseCoords := mkPoint 0 0;
     isDragging := false;
     dragStart := mkPoint 0 0 |}.

Definition setScale (v : number) (st : State) : State :=
  {| scale := v; position := position st; mouseCoords := mouseCoords st;
     isDragging := isDragging st; dragStart := dragStart st |}.

Definition setPosition (v : Point) (st : State) : State :=
  {| scale := scale st; position := v; mouseCoords := mouseCoords st;
     isDragging := isDragging st; dragStart := dragStart st |}.

(** Lines 21-47. *)
Definition clampPosition (containerRef : option DOMRect)
    (newX newY currentScale : number) : Point :=
  match containerRef with
  | None => {| x := newX; y := newY |}
  | Some rect =>
      let vW := width rect in
      let vH := height rect in
      let mapW := ORIG_WIDTH * currentScale in
      let mapH := ORIG_HEIGHT * currentScale in
      let minX := vW - mapW in
      let maxX := 0 in
      let minY := vH - mapH in
      let maxY := 0 in
      let minX' := if mapW <? vW then (vW - mapW) / 2 else minX in
      let maxX' := if mapW <? vW then minX' else maxX in
      let minY' := if mapH <? vH then (vH - mapH) / 2 else minY in
      let maxY' := if mapH <? vH then minY' else maxY in
      let clampedX := Math.min (Math.max newX minX') maxX' in
      let clampedY := Math.min (Math.max newY minY') maxY' in
      {| x := clampedX; y := clampedY |}
  end.

(** Line 52. *)
Definition wheelDelta (e : WheelEvent) : number :=
  if 0 <? deltaY e then -0.1 else 0.1.

(** Line 53. *)
Definition wheelScale (st : State) (e : WheelEvent) : number :=
  Math.min (Math.max (scale st + wheelDelta e) MIN_SCALE) MAX_SCALE.

(** Lines 60-61. *)
Definition localPos (rect : DOMRect) (e : WheelEvent) : Point :=
  {| x := clientX e - left rect; y := clientY e - top rect |}.

(** Lines 63-64. *)
Definition imagePoint (m offset : Point) (s : number) : Point :=
  {| x := (x m - x offset) / s; y := (y m - y offset) / s |}.

(** Lines 66-67. *)
Definition wheelNext (m pt : Point) (newScale : number) : Point :=
  {| x := x m - x pt * newScale; y := y m - y pt * newScale |}.

(** Lines 50-72; [===] on numbers is the IEEE equality. *)
Definition handleWheel (containerRef : option DOMRect) (st : State)
    (e : WheelEvent) : State :=
  let newScale := wheelScale st e in
  if newScale =? scale st then st
  else
    match containerRef with
    | None => st
    | Some rect =>
        let m := localPos rect e in
        let pt := imagePoint m (position st) (scale st) in
        let next := wheelNext m pt newScale in
        let clamped := clampPosition containerRef (x next) (y next) newScale in
        setPosition clamped (setScale newScale st)
    end.

(** Lines 114-123. *)
Definition mountEffect (containerRef : option DOMRect) (st : State) : State :=
  match containerRef with
  | Some rect =>
      let initialScale := 0.8 in
      let initialX := (width rect - ORIG_WIDTH * initialScale) / 2 in
      let initialY := (height rect - ORIG_HEIGHT * initialScale) / 2 in
      setPosition (clampPosition containerRef initialX initialY initialScale)
        (setScale initialScale st)
  | None => st
  end.

(** Scenario A in binary64, and one wheel notch towards zooming in. *)
Definition surface : DOMRect := mkRect 0 0 1000 800.
Definition scenarioA : State := mountEffect (Some surface) initialState.
Definition notchIn (cx cy : number) : WheelEvent := mkWheel (-100) cx cy.

End Binary64.

(** * Proofs *)

(** ** Points *)

Lemma Point_eq_refl (p : Point) : p =.= p.
Proof. split; reflexivity. Qed.

Lemma Point_eq_sym (p q : Point) : p =.= q -> q =.= p.
Proof. intros [Hx Hy]; split; symmetry; assumption. Qed.

Lemma Point_eq_trans (p q r : Point) : p =.= q -> q =.= r -> p =.= r.
Proof.
  intros [Hx Hy] [Hx' Hy']; split;
    [rewrite Hx; exact Hx' | rewrite Hy; exact Hy'].
Qed.

Lemma Point_eta (p : Point) : {| x := x p; y := y p |} = p.
Proof. destruct p; reflexivity. Qed.

(** ** [Math.min] and [Math.max] *)

(** [lra] over [Q] does not read a division: halving is turned into a
    multiplication by [1 # 2] first. *)
Lemma Qdiv_2 (a : number) : a / 2 == a * (1 # 2).
Proof. reflexivity. Qed.

Ltac halves :=
  repeat match goal with
  | |- context [?a / 2] => setoid_rewrite (Qdiv_2 a)
  | H : context [?a / 2] |- _ => setoid_rewrite (Qdiv_2 a) in H
  end.

(** Replaces every [Math.min]/[Math.max] of the goal by a fresh variable
    constrained by its specification, then calls [lra]. *)
Ltac minmax :=
  unfold Math.min, Math.max in *;
  repeat match goal with
  | |- context [Qmax ?a ?b] =>
      let v := fresh "mx" in
      let H := fresh "Hmx" in
      destruct (Q.max_spec a b) as [[? H] | [? H]];
      remember (Qmax a b) as v
  | |- context [Qmin ?a ?b] =>
      let v := fresh "mn" in
      let H := fresh "Hmn" in
      destruct (Q.min_spec a b) as [[? H] | [? H]];
      remember (Qmin a b) as v
  end;
  try lra.

Lemma clamp_minmax_range (lo hi v : number) :
  lo <= hi -> Math.min (Math.max v lo) hi == spec_clamp_range lo hi v.
Proof.
  intros Hle. unfold spec_clamp_range.
  destruct (Qlt_le_dec v lo); [| destruct (Qlt_le_dec hi v)]; minmax.
Qed.

Lemma clamp_minmax_point (c v : number) : Math.min (Math.max v c) c == c.
Proof. minmax. Qed.

Lemma clamp_minmax_bounds (lo hi v : number) :
  lo <= hi -> lo <= Math.min (Math.max v lo) hi /\ Math.min (Math.max v lo) hi <= hi.
Proof. intros Hle; split; minmax. Qed.

Lemma clamp_minmax_fix (lo hi v : number) :
  lo <= v -> v <= hi -> Math.min (Math.max v lo) hi == v.
Proof. intros H1 H2; minmax. Qed.

Lemma clamp_minmax_idem (lo hi v : number) :
  lo <= hi ->
  Math.min (Math.max (Math.min (Math.max v lo) hi) lo) hi
  == Math.min (Math.max v lo) hi.
Proof.
  intros Hle. destruct (clamp_minmax_bounds lo hi v Hle) as [H1 H2].
  apply clamp_minmax_fix; assumption.
Qed.

(** ** [clampPosition] *)

Section Clamp.

Variable rect : DOMRect.

Lemma clampPosition_absent (newX newY s : number) :
  clampPosition None newX newY s = {| x := newX; y := newY |}.
Proof. reflexivity. Qed.

(** The two branches of one axis, on the code. *)
Lemma clamp_min_le_max (imageSize viewSize s : number) :
  let content := imageSize * s in
  let lo := if Qlt_le_dec content viewSize
            then (viewSize - content) / 2 else viewSize - content in
  let hi := if Qlt_le_dec content viewSize then lo else 0 in
  lo <= hi.
Proof.
  cbv zeta. destruct (Qlt_le_dec (imageSize * s) viewSize); lra.
Qed.

Lemma clamp_axis_spec (imageSize viewSize s v : number) :
  let content := imageSize * s in
  let lo := if Qlt_le_dec content viewSize
            then (viewSize - content) / 2 else viewSize - content in
  let hi := if Qlt_le_dec content viewSize then lo else 0 in
  Math.min (Math.max v lo) hi == spec_clamp_axis imageSize viewSize s v.
Proof.
  cbv zeta. unfold spec_clamp_axis.
  destruct (Qlt_le_dec (imageSize * s) viewSize) as [Hlt | Hge].
  - apply clamp_minmax_point.
  - apply clamp_minmax_range. lra.
Qed.

Lemma clampPosition_x (newX newY s : number) :
  x (clampPosition (Some rect) newX newY s)
  == spec_clamp_axis ORIG_WIDTH (width rect) s newX.
Proof. apply (clamp_axis_spec ORIG_WIDTH (width rect) s newX). Qed.

Lemma clampPosition_y (newX newY s : number) :
  y (clampPosition (Some rect) newX newY s)
  == spec_clamp_axis ORIG_HEIGHT (height rect) s newY.
Proof. apply (clamp_axis_spec ORIG_HEIGHT (height rect) s newY). Qed.

(** Clamping a clamped offset changes nothing. *)
Lemma clampPosition_idem (newX newY s : number) :
  let p := clampPosition (Some rect) newX newY s in
  clampPosition (Some rect) (x p) (y p) s =.= p.
Proof.
  cbv zeta. split; cbn [clampPosition x y].
  - apply clamp_minmax_idem.
    apply (clamp_min_le_max ORIG_WIDTH (width rect) s).
  - apply clamp_minmax_idem.
    apply (clamp_min_le_max ORIG_HEIGHT (height rect) s).
Qed.

End Clamp.

Lemma clampPosition_fixed (c : option DOMRect) (newX newY s : number) :
  let p := clampPosition c newX newY s in
  clampPosition c (x p) (y p) s =.= p.
Proof.
  destruct c as [rect |].
  - apply clampPosition_idem.
  - apply Point_eq_refl.
Qed.

(** The clamp respects numeric equality of its arguments. *)
Lemma clampPosition_compat (c : option DOMRect) (x1 y1 s1 x2 y2 s2 : number) :
  x1 == x2 -> y1 == y2 -> s1 == s2 ->
  clampPosition c x1 y1 s1 =.= clampPosition c x2 y2 s2.
Proof.
  intros Hx Hy Hs. destruct c as [rect |]; [| split; assumption].
  split; cbn [clampPosition x y].
  - rewrite (clamp_axis_spec ORIG_WIDTH (width rect) s1 x1).
    rewrite (clamp_axis_spec ORIG_WIDTH (width rect) s2 x2).
    unfold spec_clamp_axis, spec_clamp_range, ORIG_WIDTH, ORIG_HEIGHT.
    repeat match goal with
    | |- context [Qlt_le_dec ?a ?b] => destruct (Qlt_le_dec a b)
    end; halves; lra.
  - rewrite (clamp_axis_spec ORIG_HEIGHT (height rect) s1 y1).
    rewrite (clamp_axis_spec ORIG_HEIGHT (height rect) s2 y2).
    unfold spec_clamp_axis, spec_clamp_range, ORIG_WIDTH, ORIG_HEIGHT.
    repeat match goal with
    | |- context [Qlt_le_dec ?a ?b] => destruct (Qlt_le_dec a b)
    end; halves; lra.
Qed.

(** C2. On a measured surface [clampPosition] treats the two axes
    independently and identically: the x result depends only on the
    candidate x, the scale and the surface width, the y result only on the
    candidate y, the scale and the surface height; on an axis where
    [imageSize * scale >= surfaceSize] it is the candidate clamped into
    [[surfaceSize - imageSize * scale, 0]], and where
    [imageSize * scale < surfaceSize] it is
    [(surfaceSize - imageSize * scale) / 2] whatever the candidate.  Being a
    function of its arguments it has no side effect. *)
Theorem clampPosition_per_axis (rect : DOMRect) (newX newY s : number) :
  clampPosition (Some rect) newX newY s
  =.= {| x := spec_clamp_axis ORIG_WIDTH (width rect) s newX;
         y := spec_clamp_axis ORIG_HEIGHT (height rect) s newY |}.
Proof.
  split; cbn [x y]; [apply clampPosition_x | apply clampPosition_y].
Qed.

(** ** The zoom operation *)

Lemma wheelDelta_cases (e : WheelEvent) :
  (0 < deltaY e /\ wheelDelta e = - (1 # 10))
  \/ (deltaY e <= 0 /\ wheelDelta e = 1 # 10).
Proof.
  unfold wheelDelta. destruct (Qlt_le_dec 0 (deltaY e)); [left | right]; auto.
Qed.

Lemma wheelScale_in_range (st : State) (e : WheelEvent) :
  MIN_SCALE <= wheelScale st e /\ wheelScale st e <= MAX_SCALE.
Proof.
  unfold wheelScale. apply clamp_minmax_bounds.
  unfold MIN_SCALE, MAX_SCALE. lra.
Qed.

Lemma wheelScale_pos (st : State) (e : WheelEvent) : 0 < wheelScale st e.
Proof.
  destruct (wheelScale_in_range st e) as [Hlo _].
  unfold MIN_SCALE in Hlo. lra.
Qed.

Lemma wheelScale_at_max (st : State) (e : WheelEvent) :
  scale st == MAX_SCALE -> deltaY e <= 0 -> wheelScale st e == scale st.
Proof.
  intros Hs Hd. unfold wheelScale.
  destruct (wheelDelta_cases e) as [[Hlt _] | [_ ->]]; [lra |].
  unfold MAX_SCALE, MIN_SCALE in *. minmax.
Qed.

Lemma wheelScale_at_min (st : State) (e : WheelEvent) :
  scale st == MIN_SCALE -> 0 < deltaY e -> wheelScale st e == scale st.
Proof.
  intros Hs Hd. unfold wheelScale.
  destruct (wheelDelta_cases e) as [[_ ->] | [Hle _]]; [| lra].
  unfold MAX_SCALE, MIN_SCALE in *. minmax.
Qed.

Lemma handleWheel_same_scale (c : option DOMRect) (st : State) (e : WheelEvent) :
  wheelScale st e == scale st -> handleWheel c st e = st.
Proof.
  intros Heq. unfold handleWheel.
  destruct (Qeq_dec (wheelScale st e) (scale st)) as [_ | Hne];
    [reflexivity | contradiction].
Qed.

Lemma handleWheel_zoom (rect : DOMRect) (st : State) (e : WheelEvent) :
  ~ wheelScale st e == scale st ->
  let m := localPos rect e in
  let next := wheelNext m (imagePoint m (position st) (scale st))
                (wheelScale st e) in
  handleWheel (Some rect) st e
  = setPosition
      (clampPosition (Some rect) (x next) (y next) (wheelScale st e))
      (setScale (wheelScale st e) st).
Proof.
  intros Hne. cbv zeta. unfold handleWheel.
  destruct (Qeq_dec (wheelScale st e) (scale st)) as [Heq | _];
    [contradiction | reflexivity].
Qed.

(** The offset of lines 66-67 puts the image point back below the pointer. *)
Lemma wheelNext_keeps_point (m pt : Point) (newScale : number) :
  0 < newScale ->
  imagePoint m (wheelNext m pt newScale) newScale =.= pt.
Proof.
  intros Hpos. split; cbn [imagePoint wheelNext x y]; field; lra.
Qed.

Lemma imagePoint_compat (m o1 o2 : Point) (s1 s2 : number) :
  o1 =.= o2 -> s1 == s2 -> imagePoint m o1 s1 =.= imagePoint m o2 s2.
Proof.
  intros [Hx Hy] Hs. split; cbn [imagePoint x y].
  - rewrite Hx, Hs. reflexivity.
  - rewrite Hy, Hs. reflexivity.
Qed.

(** When the requested scale is the current one the candidate offset of the
    zoom is the current offset. *)
Lemma wheelNext_same_scale (m offset : Point) (s newScale : number) :
  0 < s -> newScale == s ->
  wheelNext m (imagePoint m offset s) newScale =.= offset.
Proof.
  intros Hpos Heq. split; cbn [imagePoint wheelNext x y];
    rewrite Heq; field; lra.
Qed.

(** C4. A wheel event whose step, once the new scale is clamped to
    [[MIN_SCALE, MAX_SCALE]], asks for the current scale leaves the whole
    state as it is; this is what happens on zooming in at [MAX_SCALE]
    ([deltaY <= 0]) and on zooming out at [MIN_SCALE] ([deltaY > 0]). *)
Theorem handleWheel_noop (c : option DOMRect) (st : State) (e : WheelEvent) :
  wheelScale st e == scale st
  \/ (scale st == MAX_SCALE /\ deltaY e <= 0)
  \/ (scale st == MIN_SCALE /\ 0 < deltaY e) ->
  handleWheel c st e = st.
Proof.
  intros [Heq | [[Hs Hd] | [Hs Hd]]]; apply handleWheel_same_scale.
  - exact Heq.
  - apply wheelScale_at_max; assumption.
  - apply wheelScale_at_min; assumption.
Qed.

(** Zoom to cursor in exact arithmetic.  For a wheel event on a measured
    surface, from a state of positive scale, if the clamp leaves the
    candidate offset [pointer - imagePoint * newScale] as it is, that
    candidate is the offset committed, the committed scale is the clamped
    new scale, and the image point below the pointer is the same after the
    event as before it. *)
Lemma zoom_to_cursor_exact (rect : DOMRect) (st : State) (e : WheelEvent) :
  0 < scale st ->
  let m := localPos rect e in
  let pt := imagePoint m (position st) (scale st) in
  let newScale := wheelScale st e in
  let next := {| x := x m - x pt * newScale; y := y m - y pt * newScale |} in
  clampPosition (Some rect) (x next) (y next) newScale =.= next ->
  let st' := handleWheel (Some rect) st e in
  scale st' == newScale
  /\ position st' =.= next
  /\ imagePoint m (position st') (scale st') =.= pt.
Proof.
  intros Hpos m pt newScale next Hfix st'.
  assert (Hkeep : imagePoint m next newScale =.= pt)
    by (apply wheelNext_keeps_point, wheelScale_pos).
  destruct (Qeq_dec newScale (scale st)) as [Heq | Hne].
  - assert (Hst : st' = st) by (apply handleWheel_same_scale; exact Heq).
    assert (Hnext : position st =.= next)
      by (apply Point_eq_sym, wheelNext_same_scale; assumption).
    rewrite Hst. split; [| split].
    + symmetry; exact Heq.
    + exact Hnext.
    + apply (Point_eq_trans _ (imagePoint m next newScale));
        [apply imagePoint_compat; [exact Hnext | symmetry; exact Heq] |].
      exact Hkeep.
  - assert (Hst : st' = setPosition
                          (clampPosition (Some rect) (x next) (y next) newScale)
                          (setScale newScale st))
      by (apply handleWheel_zoom; exact Hne).
    rewrite Hst. cbn [setPosition setScale scale position].
    split; [reflexivity |]. split; [exact Hfix |].
    apply (Point_eq_trans _ (imagePoint m next newScale));
      [apply imagePoint_compat; [exact Hfix | reflexivity] | exact Hkeep].
Qed.

(** *** The same handler in binary64 *)

Module Binary64Facts.

Import Binary64.
Local Open Scope float_scope.

(** A wheel event that changes the scale commits the clamped candidate. *)
Lemma b64_handleWheel_zoom (rect : DOMRect) (st : State) (e : WheelEvent) :
  (wheelScale st e =? scale st) = false ->
  let m := localPos rect e in
  let next := wheelNext m (imagePoint m (position st) (scale st))
                (wheelScale st e) in
  handleWheel (Some rect) st e
  = setPosition
      (clampPosition (Some rect) (x next) (y next) (wheelScale st e))
      (setScale (wheelScale st e) st).
Proof.
  intros Hne. cbv zeta. unfold handleWheel. rewrite Hne. reflexivity.
Qed.

(** A wheel event that asks for the current scale commits nothing. *)
Lemma b64_handleWheel_same_scale (c : option DOMRect) (st : State) (e : WheelEvent) :
  (wheelScale st e =? scale st) = true -> handleWheel c st e = st.
Proof.
  intros Heq. unfold handleWheel. rewrite Heq. reflexivity.
Qed.

End Binary64Facts.

(** C1, as the code has it.  In binary64, for every wheel event on a
    measured surface that changes the scale and whose candidate offset the
    clamp returns unchanged, the committed scale is the clamped new scale
    and the committed offset is the candidate
    [pointer - imagePoint * newScale], with
    [imagePoint = (pointer - oldOffset) / oldScale], each operation rounded
    as the code rounds it.  In exact arithmetic, from a positive scale, the
    same candidate is committed and the image point below the pointer is
    the same after the event as before it. *)
Theorem zoom_commits_candidate :
  (forall (rect : Binary64.DOMRect) (st : Binary64.State)
          (e : Binary64.WheelEvent),
     let m := Binary64.localPos rect e in
     let pt := Binary64.imagePoint m (Binary64.position st) (Binary64.scale st) in
     let newScale := Binary64.wheelScale st e in
     let next := {| Binary64.x := Binary64.x m - Binary64.x pt * newScale;
                    Binary64.y := Binary64.y m - Binary64.y pt * newScale |}%float in
     PrimFloat.eqb newScale (Binary64.scale st) = false ->
     Binary64.clampPosition (Some rect) (Binary64.x next) (Binary64.y next)
       newScale = next ->
     let st' := Binary64.handleWheel (Some rect) st e in
     Binary64.scale st' = newScale /\ Binary64.position st' = next)
  /\ (forall (rect : DOMRect) (st : State) (e : WheelEvent),
        0 < scale st ->
        let m := localPos rect e in
        let pt := imagePoint m (position st) (scale st) in
        let newScale := wheelScale st e in
        let next := {| x := x m - x pt * newScale;
                       y := y m - y pt * newScale |} in
        clampPosition (Some rect) (x next) (y next) newScale =.= next ->
        let st' := handleWheel (Some rect) st e in
        scale st' == newScale
        /\ position st' =.= next
        /\ imagePoint m (position st') (scale st') =.= pt).
Proof.
  split.
  - intros rect st e m pt newScale next Hne Hfix st'. subst st'.
    rewrite (Binary64Facts.b64_handleWheel_zoom rect st e Hne).
    cbn [Binary64.setPosition Binary64.setScale Binary64.scale
         Binary64.position].
    split; [reflexivity | exact Hfix].
  - intros rect st e Hpos m pt newScale next Hfix st'.
    exact (zoom_to_cursor_exact rect st e Hpos Hfix).
Qed.

(** ** The state invariant *)

Lemma invariant_frame (c : option DOMRect) (st st' : State) :
  scale st' = scale st -> position st' = position st ->
  invariant c st -> invariant c st'.
Proof.
  unfold invariant, scale_in_range, offset_clamped.
  intros -> ->. exact (fun H => H).
Qed.

(** A state whose offset was just produced by the clamp at its own scale. *)
Lemma invariant_commit (c : option DOMRect) (st : State)
    (newX newY s : number) :
  MIN_SCALE <= s <= MAX_SCALE ->
  invariant c (setPosition (clampPosition c newX newY s) (setScale s st)).
Proof.
  intros Hs. split.
  - exact Hs.
  - unfold offset_clamped. cbn [setPosition setScale scale position].
    apply clampPosition_fixed.
Qed.

Lemma offset_clamped_absent (st : State) : offset_clamped None st.
Proof. split; reflexivity. Qed.

Lemma initial_scale_in_range : MIN_SCALE <= 8 # 10 <= MAX_SCALE.
Proof. unfold MIN_SCALE, MAX_SCALE. split; lra. Qed.

Lemma mountEffect_invariant (c : option DOMRect) :
  invariant c (mountEffect c initialState).
Proof.
  destruct c as [rect |]; cbn [mountEffect].
  - apply invariant_commit, initial_scale_in_range.
  - split; [apply initial_scale_in_range | apply Point_eq_refl].
Qed.

Lemma handleWheel_invariant (c : option DOMRect) (st : State) (e : WheelEvent) :
  invariant c st -> invariant c (handleWheel c st e).
Proof.
  intros Hinv. unfold handleWheel.
  destruct (Qeq_dec (wheelScale st e) (scale st)) as [_ | _]; [exact Hinv |].
  destruct c as [rect |]; [| exact Hinv].
  apply invariant_commit, wheelScale_in_range.
Qed.

Lemma handleMouseDown_frame (st : State) (e : MouseEvent) :
  scale (handleMouseDown st e) = scale st
  /\ position (handleMouseDown st e) = position st
  /\ mouseCoords (handleMouseDown st e) = mouseCoords st.
Proof.
  unfold handleMouseDown. destruct (negb (button e =? 0)%Z); auto.
Qed.

Lemma handleMouseMove_invariant (c : option DOMRect) (st : State)
    (e : MouseEvent) :
  invariant c st -> invariant c (handleMouseMove c st e).
Proof.
  intros Hinv. unfold handleMouseMove.
  destruct c as [rect |]; [| exact Hinv].
  destruct (isDragging st); cbn [negb].
  - destruct Hinv as [Hs _]. split; [exact Hs |].
    unfold offset_clamped.
    cbn [setPosition setMouseCoords scale position].
    apply clampPosition_fixed.
  - apply (invariant_frame _ st); [reflexivity | reflexivity | exact Hinv].
Qed.

Lemma onLoad_invariant (c : option DOMRect) (st : State) :
  scale_in_range st -> invariant c (onLoad c st).
Proof.
  intros Hs. split; [exact Hs |].
  unfold offset_clamped, onLoad. cbn [setPosition scale position].
  apply clampPosition_fixed.
Qed.

Lemma dispatch_invariant (c : option DOMRect) (st : State) (ev : Event) :
  invariant c st -> invariant c (dispatch c st ev).
Proof.
  intros Hinv. destruct ev as [e | e | e | | |]; cbn [dispatch].
  - apply handleWheel_invariant, Hinv.
  - destruct (handleMouseDown_frame st e) as (Hs & Hp & _).
    apply (invariant_frame _ st); assumption.
  - apply handleMouseMove_invariant, Hinv.
  - apply (invariant_frame _ st); [reflexivity | reflexivity | exact Hinv].
  - apply (invariant_frame _ st); [reflexivity | reflexivity | exact Hinv].
  - apply onLoad_invariant, Hinv.
Qed.

Lemma fold_dispatch_reachable (c : option DOMRect) (evs : list Event)
    (st : State) :
  reachable c st -> reachable c (fold_left (dispatch c) evs st).
Proof.
  revert st. induction evs as [| ev evs IH]; intros st Hst; cbn [fold_left].
  - exact Hst.
  - apply IH. constructor. exact Hst.
Qed.

Lemma run_reachable (c : option DOMRect) (evs : list Event) :
  reachable c (run c evs).
Proof. apply fold_dispatch_reachable. constructor. Qed.

Lemma reachable_run (c : option DOMRect) (st : State) :
  reachable c st -> exists evs, st = run c evs.
Proof.
  induction 1 as [| st ev _ [evs ->]].
  - exists []. reflexivity.
  - exists (evs ++ [ev]). unfold run. rewrite fold_left_app. reflexivity.
Qed.

(** Every write of the offset stores a fixed point of the clamp for the
    surface the handler measured, whatever the state before the event. *)
Lemma commits_are_clamped (c : option DOMRect) (st : State) :
  (forall e, ~ wheelScale st e == scale st ->
             offset_clamped c (handleWheel c st e))
  /\ (forall e, isDragging st = true ->
                offset_clamped c (handleMouseMove c st e))
  /\ offset_clamped c (onLoad c st)
  /\ offset_clamped c (mountEffect c initialState).
Proof.
  split; [| split; [| split]].
  - intros e Hne. destruct c as [rect |].
    + rewrite (handleWheel_zoom rect st e Hne).
      apply (invariant_commit (Some rect) st _ _ _ (wheelScale_in_range st e)).
    + unfold handleWheel.
      destruct (Qeq_dec (wheelScale st e) (scale st)); [contradiction |].
      apply offset_clamped_absent.
  - intros e Hdrag. destruct c as [rect |]; [| apply offset_clamped_absent].
    unfold handleMouseMove. rewrite Hdrag. cbn [negb].
    unfold offset_clamped. cbn [setPosition setMouseCoords scale position].
    apply clampPosition_fixed.
  - unfold offset_clamped, onLoad. cbn [setPosition scale position].
    apply clampPosition_fixed.
  - apply mountEffect_invariant.
Qed.

Lemma reachable_inv (c : option DOMRect) (st : State) :
  reachable c st -> invariant c st.
Proof.
  induction 1 as [| st ev _ IH].
  - apply mountEffect_invariant.
  - apply dispatch_invariant. exact IH.
Qed.

(** An event either leaves scale and offset as they are or commits an
    offset clamped for the surface its handler measured. *)
Lemma dispatch_frame_or_commit (c : option DOMRect) (st : State) (ev : Event) :
  (scale (dispatch c st ev) = scale st
   /\ position (dispatch c st ev) = position st)
  \/ offset_clamped c (dispatch c st ev).
Proof.
  destruct ev as [e | e | e | | |]; cbn [dispatch].
  - destruct (Qeq_dec (wheelScale st e) (scale st)) as [Heq | Hne].
    + left. rewrite (handleWheel_same_scale c st e Heq). auto.
    + right. apply (commits_are_clamped c st). exact Hne.
  - left. destruct (handleMouseDown_frame st e) as (Hs & Hp & _). auto.
  - destruct (isDragging st) eqn:Hdrag.
    + right. apply (commits_are_clamped c st). exact Hdrag.
    + left. unfold handleMouseMove. destruct c as [rect |]; [| auto].
      rewrite Hdrag. auto.
  - left. auto.
  - left. auto.
  - right. apply (commits_are_clamped c st).
Qed.

Lemma dispatch_scale_in_range (c : option DOMRect) (st : State) (ev : Event) :
  scale_in_range st -> scale_in_range (dispatch c st ev).
Proof.
  intros Hs. destruct ev as [e | e | e | | |]; cbn [dispatch];
    try exact Hs.
  - unfold handleWheel.
    destruct (Qeq_dec (wheelScale st e) (scale st)); [exact Hs |].
    destruct c as [rect |]; [apply wheelScale_in_range | exact Hs].
  - unfold scale_in_range.
    destruct (handleMouseDown_frame st e) as (-> & _). exact Hs.
  - unfold handleMouseMove. destruct c as [rect |]; [| exact Hs].
    destruct (isDragging st); exact Hs.
Qed.

(** The hook defaults, before the mount effect has run, are not covered: on
    a surface wider than the scaled image the offset (0, 0) is not the
    centred one.  The mount effect replaces them before any event. *)
Example initialState_before_mount :
  ~ offset_clamped (Some wideSurface) initialState
  /\ offset_clamped (Some wideSurface) (mountEffect (Some wideSurface) initialState).
Proof.
  split.
  - intros [Hx _]. vm_compute in Hx. discriminate Hx.
  - apply mountEffect_invariant.
Qed.

(** ** Pointer coordinate reporting *)

Lemma Math_round_compat (a b : number) : a == b -> Math.round a = Math.round b.
Proof.
  intros Hab. unfold Math.round. f_equal. apply Qfloor_comp.
  rewrite Hab. reflexivity.
Qed.



Lemma reportCoords_bounds (m offset : Point) (s : number) :
  (0 <= x (reportCoords m offset s) <= ORIG_WIDTH)
  /\ (0 <= y (reportCoords m offset s) <= ORIG_HEIGHT).
Proof.
  split; cbn [reportCoords x y]; apply clamp_minmax_bounds.
  - unfold ORIG_WIDTH. lra.
  - unfold ORIG_HEIGHT. lra.
Qed.


Lemma handleMouseMove_mouseCoords (rect : DOMRect) (st : State)
    (e : MouseEvent) :
  mouseCoords (handleMouseMove (Some rect) st e)
  = reportCoords (localPos rect e) (position st) (scale st).
Proof.
  unfold handleMouseMove. destruct (isDragging st); reflexivity.
Qed.


(** ** Panning *)

Lemma setMouseCoords_same (st : State) : setMouseCoords (mouseCoords st) st = st.
Proof. destruct st; reflexivity. Qed.

Lemma handleMouseMove_idle (c : option DOMRect) (st : State) (e : MouseEvent) :
  isDragging st = false ->
  handleMouseMove c st e
  = setMouseCoords (mouseCoords (handleMouseMove c st e)) st.
Proof.
  intros Hidle. unfold handleMouseMove. destruct c as [rect |].
  - rewrite Hidle. reflexivity.
  - symmetry. apply setMouseCoords_same.
Qed.

Lemma handleMouseDown_other_button (st : State) (e : MouseEvent) :
  (button e <> 0)%Z -> handleMouseDown st e = st.
Proof.
  intros Hb. unfold handleMouseDown.
  destruct (Z.eqb_spec (button e) 0) as [Heq | _]; [contradiction | reflexivity].
Qed.

(** C8. A pointer-move in the idle state can change nothing but the
    published coordinate: scale, offset, drag flag and anchor are those of
    the state before.  A pointer-down with a button other than the primary
    one returns the state unchanged: no drag starts, no anchor is stored. *)
Theorem idle_move_and_other_button_frame (c : option DOMRect) (st : State)
    (e : MouseEvent) :
  (isDragging st = false ->
   let st' := handleMouseMove c st e in
   st' = setMouseCoords (mouseCoords st') st
   /\ scale st' = scale st /\ position st' = position st
   /\ isDragging st' = false /\ dragStart st' = dragStart st)
  /\ ((button e <> 0)%Z -> handleMouseDown st e = st).
Proof.
  split.
  - intros Hidle st'.
    assert (H : st' = setMouseCoords (mouseCoords st') st)
      by (apply handleMouseMove_idle; exact Hidle).
    split; [exact H |]. rewrite H. cbn [setMouseCoords scale position
      isDragging dragStart]. auto.
  - apply handleMouseDown_other_button.
Qed.

Lemma handleMouseMove_dragging (rect : DOMRect) (st : State) (e : MouseEvent) :
  isDragging st = true ->
  let next := dragNext st e in
  handleMouseMove (Some rect) st e
  = setPosition (clampPosition (Some rect) (x next) (y next) (scale st))
      (setMouseCoords
         (reportCoords (localPos rect e) (position st) (scale st)) st).
Proof.
  intros Hdrag. unfold handleMouseMove. rewrite Hdrag. reflexivity.
Qed.

(** C10. On a pointer-move while dragging the published coordinate is
    computed from the offset of the state before the event, at the new
    pointer position, while the same event commits the clamped drag offset.
    When the clamp leaves that offset alone the image point below the
    pointer after the commit is the anchor's, the same for every move of the
    drag, and the point the report was computed from differs from it by the
    distance the offset moved, divided by the scale. *)
Theorem drag_report_uses_previous_offset (rect : DOMRect) (st : State)
    (e : MouseEvent) :
  isDragging st = true ->
  let st' := handleMouseMove (Some rect) st e in
  let m := localPos rect e in
  let next := dragNext st e in
  mouseCoords st' = reportCoords m (position st) (scale st)
  /\ position st' = clampPosition (Some rect) (x next) (y next) (scale st)
  /\ scale st' = scale st
  /\ (position st' =.= next ->
      let held := {| x := (x (dragStart st) - left rect) / scale st;
                     y := (y (dragStart st) - top rect) / scale st |} in
      let used := imagePoint m (position st) (scale st) in
      imagePoint m (position st') (scale st') =.= held
      /\ x used - x held == (x next - x (position st)) / scale st
      /\ y used - y held == (y next - y (position st)) / scale st).
Proof.
  intros Hdrag st' m next.
  assert (Hst : st' = setPosition
                        (clampPosition (Some rect) (x next) (y next) (scale st))
                        (setMouseCoords
                           (reportCoords m (position st) (scale st)) st))
    by (apply handleMouseMove_dragging; exact Hdrag).
  rewrite Hst. cbn [setPosition setMouseCoords mouseCoords position scale].
  repeat (split; [reflexivity |]).
  remember (clampPosition (Some rect) (x next) (y next) (scale st)) as p.
  intros [Hx Hy]. cbv zeta. split; [split |]; cbn [imagePoint x y].
  - rewrite Hx. subst next m. cbn [dragNext localPos x y]. unfold Qdiv. ring.
  - rewrite Hy. subst next m. cbn [dragNext localPos x y]. unfold Qdiv. ring.
  - subst next m. cbn [dragNext localPos x y]. unfold Qdiv. split; ring.
Qed.

(** ** The asset-ready handler *)

Lemma onLoad_frame (c : option DOMRect) (st : State) :
  scale (onLoad c st) = scale st
  /\ mouseCoords (onLoad c st) = mouseCoords st
  /\ isDragging (onLoad c st) = isDragging st
  /\ dragStart (onLoad c st) = dragStart st.
Proof. unfold onLoad. cbn. auto. Qed.

(** C6, as the code has it.  On asset-ready the handler passes the offset it
    already holds through the clamp, at the current scale and for the
    container as it finds it, and commits the result; it computes no
    centring offset and touches nothing else. *)
Theorem onLoad_reclamps (c : option DOMRect) (st : State) :
  position (onLoad c st)
  = clampPosition c (x (position st)) (y (position st)) (scale st)
  /\ scale (onLoad c st) = scale st
  /\ mouseCoords (onLoad c st) = mouseCoords st
  /\ isDragging (onLoad c st) = isDragging st
  /\ dragStart (onLoad c st) = dragStart st.
Proof.
  split; [reflexivity |].
  destruct (onLoad_frame c st) as (Hs & Hm & Hd & Ha).
  repeat (split; [assumption |]). exact Ha.
Qed.

(** ** An absent container *)

Section Absent.

Variable st : State.

Lemma handleWheel_absent (e : WheelEvent) : handleWheel None st e = st.
Proof.
  unfold handleWheel.
  destruct (Qeq_dec (wheelScale st e) (scale st)); reflexivity.
Qed.

Lemma handleMouseMove_absent (e : MouseEvent) : handleMouseMove None st e = st.
Proof. reflexivity. Qed.

Lemma mountEffect_absent : mountEffect None st = st.
Proof. reflexivity. Qed.

Lemma onLoad_absent : onLoad None st = st.
Proof.
  unfold onLoad. cbn [clampPosition]. rewrite Point_eta.
  destruct st; reflexivity.
Qed.

End Absent.

(** A measured surface, of whatever size, is never deferred by the mount
    effect. *)
Lemma mountEffect_measured (rect : DOMRect) (st : State) :
  scale (mountEffect (Some rect) st) = 8 # 10
  /\ position (mountEffect (Some rect) st) = spec_recenter rect (8 # 10).
Proof. split; reflexivity. Qed.

(** C7, as the code has it.  While the container reference is absent (the
    surface is not yet measured) a wheel event, a pointer-move, the mount
    effect and the asset-ready handler all return the state unchanged. *)
Theorem absent_container_defers (st : State) (ew : WheelEvent) (em : MouseEvent) :
  handleWheel None st ew = st
  /\ handleMouseMove None st em = st
  /\ mountEffect None st = st
  /\ onLoad None st = st.
Proof.
  split; [apply handleWheel_absent |].
  split; [apply handleMouseMove_absent |].
  split; [apply mountEffect_absent | apply onLoad_absent].
Qed.

(** C9, as the code has it.  With the container reference absent
    [clampPosition] returns its candidate unchanged.  The asset-ready
    handler is the only caller that reaches it then, and the candidate it
    passes is the offset already held, so the offset does not change; the
    wheel handler, the pointer-move handler and the mount effect return
    before calling it and commit nothing. *)
Theorem absent_container_clamp_is_identity (newX newY s : number) (st : State)
    (ew : WheelEvent) (em : MouseEvent) :
  clampPosition None newX newY s = {| x := newX; y := newY |}
  /\ position (onLoad None st) = position st
  /\ position (handleWheel None st ew) = position st
  /\ position (handleMouseMove None st em) = position st
  /\ position (mountEffect None st) = position st.
Proof.
  split; [apply clampPosition_absent |].
  rewrite onLoad_absent, handleWheel_absent, handleMouseMove_absent,
    mountEffect_absent.
  auto.
Qed.

(** ** The invariant when the surface may change *)

(** An event that reaches no [setPosition] leaves scale and offset as they
    are; one that does commits an offset clamped for the container its
    handler measured. *)
Lemma dispatch_writes (c : option DOMRect) (st : State) (ev : Event) :
  if writesOffset c st ev
  then offset_clamped c (dispatch c st ev)
  else scale (dispatch c st ev) = scale st
       /\ position (dispatch c st ev) = position st.
Proof.
  destruct c as [rect |]; cbn [writesOffset].
  - destruct ev as [e | e | e | | |]; cbn [dispatch].
    + destruct (Qeq_dec (wheelScale st e) (scale st)) as [Heq | Hne].
      * rewrite (handleWheel_same_scale (Some rect) st e Heq). auto.
      * apply (commits_are_clamped (Some rect) st). exact Hne.
    + destruct (handleMouseDown_frame st e) as (Hs & Hp & _). auto.
    + destruct (isDragging st) eqn:Hdrag.
      * apply (commits_are_clamped (Some rect) st). exact Hdrag.
      * unfold handleMouseMove. rewrite Hdrag. auto.
    + auto.
    + auto.
    + apply (commits_are_clamped (Some rect) st).
  - destruct ev as [e | e | e | | |]; cbn [dispatch].
    + rewrite handleWheel_absent. auto.
    + destruct (handleMouseDown_frame st e) as (Hs & Hp & _). auto.
    + auto.
    + auto.
    + auto.
    + rewrite onLoad_absent. auto.
Qed.

Lemma measured_invariant (acc : State * option DOMRect)
    (ce : option DOMRect * Event) :
  invariant (snd acc) (fst acc) ->
  invariant (snd (measured acc ce)) (fst (measured acc ce)).
Proof.
  destruct acc as [st c0], ce as [c ev]. cbn [measured fst snd].
  intros [Hs Hfix]. split; [apply dispatch_scale_in_range; exact Hs |].
  pose proof (dispatch_writes c st ev) as Hw.
  destruct (writesOffset c st ev).
  - exact Hw.
  - destruct Hw as [Hsc Hpos]. unfold offset_clamped in *.
    rewrite Hsc, Hpos. exact Hfix.
Qed.

Lemma fold_measured_invariant (evs : list (option DOMRect * Event))
    (acc : State * option DOMRect) :
  invariant (snd acc) (fst acc) ->
  invariant (snd (fold_left measured evs acc)) (fst (fold_left measured evs acc)).
Proof.
  revert acc. induction evs as [| ce evs IH]; intros acc Hinv; cbn [fold_left].
  - exact Hinv.
  - apply IH, measured_invariant, Hinv.
Qed.

Lemma fold_measured_same_surface (evs : list (option DOMRect * Event))
    (acc : State * option DOMRect) :
  (forall ce, In ce evs -> fst ce = snd acc) ->
  snd (fold_left measured evs acc) = snd acc.
Proof.
  revert acc. induction evs as [| ce evs IH]; intros acc Hall; cbn [fold_left].
  - reflexivity.
  - assert (Hce : snd (measured acc ce) = snd acc).
    { cbn [measured snd].
      destruct (writesOffset (fst ce) (fst acc) (snd ce)); [| reflexivity].
      apply Hall. left. reflexivity. }
    rewrite IH; [exact Hce |].
    intros ce' Hin. rewrite Hce. apply Hall. right. exact Hin.
Qed.

(** C3, as the code has it.  From the mount effect on, whatever container
    each handler finds, the scale lies within [[MIN_SCALE, MAX_SCALE]] and
    the offset is a fixed point of the clamp, at the current scale, for the
    container measured by the last handler that wrote the offset (the mount
    effect, a wheel event that changed the scale, a move during a drag, the
    load event).  When every handler found the container of the mount
    effect, that is the surface of the whole session. *)
Theorem session_invariant (mounted : option DOMRect)
    (evs : list (option DOMRect * Event)) :
  let st := fst (session mounted evs) in
  let c := snd (session mounted evs) in
  (MIN_SCALE <= scale st /\ scale st <= MAX_SCALE)
  /\ clampPosition c (x (position st)) (y (position st)) (scale st)
     =.= position st
  /\ ((forall ce, In ce evs -> fst ce = mounted) -> c = mounted).
Proof.
  cbv zeta. unfold session.
  pose proof (fold_measured_invariant evs
                (mountEffect mounted initialState, mounted)
                (mountEffect_invariant mounted)) as [Hs Hfix].
  split; [exact Hs |]. split; [exact Hfix |].
  intros Hall.
  exact (fold_measured_same_surface evs
           (mountEffect mounted initialState, mounted) Hall).
Qed.

(** * The scenarios, evaluated *)

Ltac qcompute := vm_compute; reflexivity.

(** Scenario A: offset (-955.2, -1542) at scale 0.8. *)
Example scenarioA_state :
  scale scenarioA == 8 # 10
  /\ position scenarioA =.= {| x := - (9552 # 10); y := - 1542 |}.
Proof. repeat split; qcompute. Qed.

(** Eight notches in reach [MAX_SCALE]; a ninth changes nothing. *)
Lemma handleWheel_noop_witness :
  let e := notchIn 500 400 in
  (wheelScale zoomedIn e == scale zoomedIn
   \/ (scale zoomedIn == MAX_SCALE /\ deltaY e <= 0)
   \/ (scale zoomedIn == MIN_SCALE /\ 0 < deltaY e))
  /\ handleWheel (Some surface) zoomedIn e = zoomedIn.
Proof.
  intros e.
  assert (H : wheelScale zoomedIn e == scale zoomedIn
              \/ (scale zoomedIn == MAX_SCALE /\ deltaY e <= 0)
              \/ (scale zoomedIn == MIN_SCALE /\ 0 < deltaY e)).
  { right; left. split; [qcompute | vm_compute; discriminate]. }
  split; [exact H | exact (handleWheel_noop (Some surface) zoomedIn e H)].
Defined.


(** Scenario E: a secondary-button press in Scenario A, then a move. *)
Lemma idle_move_and_other_button_frame_witness :
  let e := mkMouse 2 500 400 in
  let st' := handleMouseMove (Some surface) scenarioA e in
  (isDragging scenarioA = false /\ (button e <> 0)%Z)
  /\ (st' = setMouseCoords (mouseCoords st') scenarioA
      /\ scale st' = scale scenarioA /\ position st' = position scenarioA
      /\ isDragging st' = false /\ dragStart st' = dragStart scenarioA)
  /\ handleMouseDown scenarioA e = scenarioA.
Proof.
  intros e st'.
  assert (Hidle : isDragging scenarioA = false) by reflexivity.
  assert (Hb : (button e <> 0)%Z) by discriminate.
  destruct (idle_move_and_other_button_frame (Some surface) scenarioA e)
    as [Hmove Hdown].
  split; [split; [exact Hidle | exact Hb] |].
  split; [exact (Hmove Hidle) | exact (Hdown Hb)].
Defined.

(** Scenario D: the move to (520, 380) shifts the offset by (+20, -20) and
    publishes (1844, 2453), computed from the offset before the move; with
    the offset just committed the same pointer is over (1819, 2428), the
    point the drag started on. *)
Lemma drag_report_uses_previous_offset_witness :
  let st := scenarioD_down in
  let e := pointerAt 520 380 in
  let st' := handleMouseMove (Some surface) st e in
  let m := localPos surface e in
  isDragging st = true
  /\ (mouseCoords st' = reportCoords m (position st) (scale st)
      /\ position st' =.= dragNext st e)
  /\ mouseCoords st' = {| x := 1844; y := 2453 |}
  /\ reportCoords m (position st') (scale st') = {| x := 1819; y := 2428 |}
  /\ mouseCoords scenarioD = {| x := 1844; y := 2453 |}.
Proof.
  intros st e st' m.
  assert (Hdrag : isDragging st = true) by reflexivity.
  destruct (drag_report_uses_previous_offset surface st e Hdrag)
    as (Hrep & Hpos & _ & _).
  split; [exact Hdrag |].
  split; [split; [exact Hrep | split; qcompute] |].
  repeat split; qcompute.
Defined.

(** Scenario C in binary64 and in exact arithmetic: one notch in at
    (500, 400) changes the scale, the clamp keeps the candidate, and the
    candidate is committed. *)
Lemma zoom_commits_candidate_witness :
  let rectB := Binary64.surface in
  let stB := Binary64.scenarioA in
  let eB := (Binary64.notchIn 500 400)%float in
  let mB := Binary64.localPos rectB eB in
  let ptB := Binary64.imagePoint mB (Binary64.position stB) (Binary64.scale stB) in
  let newScaleB := Binary64.wheelScale stB eB in
  let nextB := {| Binary64.x := Binary64.x mB - Binary64.x ptB * newScaleB;
                  Binary64.y := Binary64.y mB - Binary64.y ptB * newScaleB |}%float in
  let stB' := Binary64.handleWheel (Some rectB) stB eB in
  let st := scenarioA in
  let e := notchIn 500 400 in
  let m := localPos surface e in
  let pt := imagePoint m (position st) (scale st) in
  let newScale := wheelScale st e in
  let next := {| x := x m - x pt * newScale; y := y m - y pt * newScale |} in
  let st' := handleWheel (Some surface) st e in
  (PrimFloat.eqb newScaleB (Binary64.scale stB) = false
   /\ Binary64.clampPosition (Some rectB) (Binary64.x nextB) (Binary64.y nextB)
        newScaleB = nextB)
  /\ (Binary64.scale stB' = newScaleB /\ Binary64.position stB' = nextB)
  /\ (0 < scale st
      /\ clampPosition (Some surface) (x next) (y next) newScale =.= next)
  /\ (scale st' == newScale
      /\ position st' =.= next
      /\ imagePoint m (position st') (scale st') =.= pt).
Proof.
  intros rectB stB eB mB ptB newScaleB nextB stB' st e m pt newScale next st'.
  assert (HneB : PrimFloat.eqb newScaleB (Binary64.scale stB) = false)
    by qcompute.
  assert (HfixB : Binary64.clampPosition (Some rectB) (Binary64.x nextB)
                    (Binary64.y nextB) newScaleB = nextB) by qcompute.
  assert (Hpos : 0 < scale st) by qcompute.
  assert (Hfix : clampPosition (Some surface) (x next) (y next) newScale =.= next)
    by (split; qcompute).
  destruct zoom_commits_candidate as [Hb Hq].
  split; [split; [exact HneB | exact HfixB] |].
  split; [exact (Hb rectB stB eB HneB HfixB) |].
  split; [split; [exact Hpos | exact Hfix] |].
  exact (Hq surface st e Hpos Hfix).
Defined.

(** A session on one surface: Scenario D followed by a release. *)
Lemma session_invariant_witness :
  let evs := [(Some surface, MouseDown (pointerAt 500 400));
              (Some surface, MouseMove (pointerAt 520 380));
              (Some surface, MouseUp)] in
  let st := fst (session (Some surface) evs) in
  let c := snd (session (Some surface) evs) in
  (forall ce, In ce evs -> fst ce = Some surface)
  /\ (MIN_SCALE <= scale st /\ scale st <= MAX_SCALE)
  /\ clampPosition c (x (position st)) (y (position st)) (scale st)
     =.= position st
  /\ c = Some surface.
Proof.
  intros evs st c.
  assert (Hall : forall ce, In ce evs -> fst ce = Some surface).
  { intros ce [<- | [<- | [<- | []]]]; reflexivity. }
  destruct (session_invariant (Some surface) evs) as (Hs & Hfix & Hc).
  split; [exact Hall |]. split; [exact Hs |]. split; [exact Hfix |].
  exact (Hc Hall).
Defined.

(** * Where the specification and the code part *)

(** C6 fails as stated: once a drag has moved the view, asset-ready commits
    the dragged offset (-935.2, -1562), not the recentred (-955.2, -1542). *)
Lemma onLoad_after_drag_is_not_recentred :
  let st := run (Some surface)
              [MouseDown (pointerAt 500 400); MouseMove (pointerAt 520 380);
               MouseUp] in
  position (onLoad (Some surface) st) =.= {| x := - (9352 # 10); y := - 1562 |}
  /\ spec_recenter surface (scale st) =.= {| x := - (9552 # 10); y := - 1542 |}
  /\ ~ position (onLoad (Some surface) st) =.= spec_recenter surface (scale st).
Proof.
  cbv zeta. split; [split; qcompute |]. split; [split; qcompute |].
  intros [Hx _]. vm_compute in Hx. discriminate Hx.
Qed.

(** C7 fails as stated: on a measured surface of size zero the mount effect
    commits the offset (-1455.2, -1942) and a wheel event then zooms. *)
Lemma zero_surface_is_not_deferred :
  let st := mountEffect (Some zeroSurface) initialState in
  position st =.= {| x := - (14552 # 10); y := - 1942 |}
  /\ ~ position st =.= position initialState
  /\ scale (handleWheel (Some zeroSurface) st (notchIn 0 0)) == 9 # 10
  /\ ~ scale (handleWheel (Some zeroSurface) st (notchIn 0 0)) == scale st.
Proof.
  cbv zeta. split; [split; qcompute |].
  split; [intros [Hx _]; vm_compute in Hx; discriminate Hx |].
  split; [qcompute |].
  intros H. vm_compute in H. discriminate H.
Qed.

(** C9 fails as stated: with the container absent the clamp would return
    the drag candidate (20, -20) unchanged, but the pointer-move handler
    returns before calling it and the offset stays (0, 0). *)
Lemma absent_container_move_commits_nothing :
  let st := handleMouseDown initialState (pointerAt 500 400) in
  let e := pointerAt 520 380 in
  let candidate := dragNext st e in
  isDragging st = true
  /\ candidate =.= {| x := 20; y := - 20 |}
  /\ clampPosition None (x candidate) (y candidate) (scale st) = candidate
  /\ position (handleMouseMove None st e) = {| x := 0; y := 0 |}
  /\ ~ position (handleMouseMove None st e) =.= candidate.
Proof.
  cbv zeta. split; [reflexivity |]. split; [split; qcompute |].
  split; [reflexivity |]. split; [reflexivity |].
  intros [Hx _]. vm_compute in Hx. discriminate Hx.
Qed.

(** C1 fails as stated: in binary64, from Scenario A, one notch in with the
    pointer at (0, 0) commits the candidate offset unclamped, yet the image
    point below the pointer moves from x = 1194 to x = 1194.0000000000002. *)
Lemma zoom_moves_image_point_in_binary64 :
  let c := Some Binary64.surface in
  let st := Binary64.scenarioA in
  let e := (Binary64.notchIn 0 0)%float in
  let m := Binary64.localPos Binary64.surface e in
  let pt := Binary64.imagePoint m (Binary64.position st) (Binary64.scale st) in
  let newScale := Binary64.wheelScale st e in
  let next := {| Binary64.x := Binary64.x m - Binary64.x pt * newScale;
                 Binary64.y := Binary64.y m - Binary64.y pt * newScale |}%float in
  let st' := Binary64.handleWheel c st e in
  let pt' := Binary64.imagePoint m (Binary64.position st') (Binary64.scale st') in
  Binary64.clampPosition c (Binary64.x next) (Binary64.y next) newScale = next
  /\ Binary64.position st' = next
  /\ Binary64.x pt = 1194%float
  /\ Binary64.x pt' = 1194.0000000000002%float
  /\ PrimFloat.eqb (Binary64.x pt') (Binary64.x pt) = false.
Proof.
  cbv zeta. repeat split; qcompute.
Qed.

(** C3 fails as stated.  After a resize the offset committed at mount for
    the 1000 x 800 surface is not a fixed point of the clamp for the
    4000 x 800 surface an idle pointer-move then measures, and nothing
    re-clamps it; and before the mount effect has run, the hook defaults
    (offset (0, 0)) are not one either. *)
Lemma offset_not_clamped_after_resize_or_before_mount :
  let st := fst (session (Some surface)
                   [(Some wideSurface, MouseMove (pointerAt 500 400))]) in
  position st =.= {| x := - (9552 # 10); y := - 1542 |}
  /\ clampPosition (Some wideSurface) (x (position st)) (y (position st))
       (scale st) =.= {| x := 5448 # 10; y := - 1542 |}
  /\ ~ clampPosition (Some wideSurface) (x (position st)) (y (position st))
         (scale st) =.= position st
  /\ ~ clampPosition (Some wideSurface) (x (position initialState))
         (y (position initialState)) (scale initialState)
       =.= position initialState.
Proof.
  cbv zeta. split; [split; qcompute |]. split; [split; qcompute |].
  split; intros [Hx _]; vm_compute in Hx; discriminate Hx.
Qed.

(** * Further properties of the handlers *)

(** ** What each event can touch *)

Lemma handleWheel_frame (c : option DOMRect) (st : State) (e : WheelEvent) :
  mouseCoords (handleWheel c st e) = mouseCoords st
  /\ isDragging (handleWheel c st e) = isDragging st
  /\ dragStart (handleWheel c st e) = dragStart st.
Proof.
  unfold handleWheel.
  destruct (Qeq_dec (wheelScale st e) (scale st)); [auto |].
  destruct c as [rect |]; cbn; auto.
Qed.

Lemma handleMouseMove_frame (c : option DOMRect) (st : State) (e : MouseEvent) :
  scale (handleMouseMove c st e) = scale st
  /\ isDragging (handleMouseMove c st e) = isDragging st
  /\ dragStart (handleMouseMove c st e) = dragStart st.
Proof.
  unfold handleMouseMove. destruct c as [rect |]; [| auto].
  destruct (isDragging st) eqn:Hdrag; cbn; auto.
Qed.

(** Each event writes only its own cells: a wheel event scale and offset; a
    press the drag flag and the anchor; a move the report and the offset; a
    release or a leave the drag flag, which it clears; the load event the
    offset. *)
Theorem dispatch_frame (c : option DOMRect) (st : State) (ev : Event) :
  let st' := dispatch c st ev in
  match ev with
  | Wheel _ =>
      mouseCoords st' = mouseCoords st /\ isDragging st' = isDragging st
      /\ dragStart st' = dragStart st
  | MouseDown _ =>
      scale st' = scale st /\ position st' = position st
      /\ mouseCoords st' = mouseCoords st
  | MouseMove _ =>
      scale st' = scale st /\ isDragging st' = isDragging st
      /\ dragStart st' = dragStart st
  | MouseUp | MouseLeave =>
      scale st' = scale st /\ position st' = position st
      /\ mouseCoords st' = mouseCoords st /\ dragStart st' = dragStart st
      /\ isDragging st' = false
  | Load =>
      scale st' = scale st /\ mouseCoords st' = mouseCoords st
      /\ isDragging st' = isDragging st /\ dragStart st' = dragStart st
  end.
Proof.
  destruct ev as [e | e | e | | |]; cbv zeta; cbn [dispatch].
  - apply handleWheel_frame.
  - apply handleMouseDown_frame.
  - apply handleMouseMove_frame.
  - cbn. auto.
  - cbn. auto.
  - apply onLoad_frame.
Qed.

(** ** The drag state machine *)

Lemma dispatch_isDragging (c : option DOMRect) (st : State) (ev : Event) :
  isDragging (dispatch c st ev) = spec_drag (isDragging st) ev.
Proof.
  destruct ev as [e | e | e | | |]; cbn [dispatch spec_drag].
  - apply handleWheel_frame.
  - unfold handleMouseDown. destruct (button e =? 0)%Z; reflexivity.
  - apply handleMouseMove_frame.
  - reflexivity.
  - reflexivity.
  - reflexivity.
Qed.

(** Whatever the surface and the pointer positions, the drag flag after a
    sequence of events is the state of the two-state machine run on those
    events: it is set exactly when the last press, release or leave was a
    press of the primary button. *)
Theorem isDragging_follows_machine (c : option DOMRect) (evs : list Event)
    (st : State) :
  isDragging (fold_left (dispatch c) evs st)
  = fold_left spec_drag evs (isDragging st).
Proof.
  revert st. induction evs as [| ev evs IH]; intros st; cbn [fold_left].
  - reflexivity.
  - rewrite IH, dispatch_isDragging. reflexivity.
Qed.

(** ** Dragging *)

Lemma dispatch_keepsDrag (c : option DOMRect) (st : State) (ev : Event) :
  keepsDrag ev = true ->
  isDragging (dispatch c st ev) = isDragging st
  /\ dragStart (dispatch c st ev) = dragStart st.
Proof.
  destruct ev as [e | e | e | | |]; cbn [dispatch keepsDrag]; intros Hk;
    try discriminate Hk.
  - apply handleWheel_frame.
  - unfold handleMouseDown. rewrite Hk. auto.
  - apply handleMouseMove_frame.
  - cbn. auto.
Qed.

Lemma fold_dispatch_keepsDrag (c : option DOMRect) (evs : list Event)
    (st : State) :
  forallb keepsDrag evs = true ->
  isDragging (fold_left (dispatch c) evs st) = isDragging st
  /\ dragStart (fold_left (dispatch c) evs st) = dragStart st.
Proof.
  revert st. induction evs as [| ev evs IH]; intros st Hall; cbn [fold_left].
  - auto.
  - cbn [forallb] in Hall. apply andb_true_iff in Hall as [Hev Hall].
    destruct (IH (dispatch c st ev) Hall) as [Hd Ha].
    destruct (dispatch_keepsDrag c st ev Hev) as [Hd' Ha'].
    rewrite Hd, Ha. auto.
Qed.

Lemma handleMouseDown_primary (st : State) (e : MouseEvent) :
  button e = 0%Z ->
  handleMouseDown st e
  = setDragStart
      {| x := clientX e - x (position st); y := clientY e - y (position st) |}
      (setIsDragging true st).
Proof. intros Hb. unfold handleMouseDown. rewrite Hb. reflexivity. Qed.

(** A drag follows the pointer from its anchor, not from the offset of the
    moment.  After a primary press at [e0] in state [st], whatever moves,
    wheel events, load events and presses of other buttons came in between,
    a move to [e] commits the clamp, at the current scale, of
    [e - (e0 - offset of st)], the pointer minus the anchor stored at the
    press, just as the handlers compute it.  The path of the pointer,
    offsets clamped on the way and offsets committed by a zoom during the
    drag leave no trace. *)
Theorem drag_follows_anchor (rect : DOMRect) (st : State) (e0 : MouseEvent)
    (evs : list Event) (e : MouseEvent) :
  button e0 = 0%Z ->
  forallb keepsDrag evs = true ->
  let stn := fold_left (dispatch (Some rect)) evs (handleMouseDown st e0) in
  position (handleMouseMove (Some rect) stn e)
  = clampPosition (Some rect)
      (clientX e - (clientX e0 - x (position st)))
      (clientY e - (clientY e0 - y (position st)))
      (scale stn).
Proof.
  intros Hb Hall stn.
  destruct (fold_dispatch_keepsDrag (Some rect) evs (handleMouseDown st e0) Hall)
    as [Hd Ha].
  fold stn in Hd, Ha. rewrite (handleMouseDown_primary st e0 Hb) in Hd, Ha.
  cbn [setDragStart setIsDragging isDragging dragStart] in Hd, Ha.
  rewrite (handleMouseMove_dragging rect stn e Hd).
  cbn [setPosition position]. unfold dragNext. rewrite Ha. reflexivity.
Qed.

Lemma fold_moves_idle (c : option DOMRect) (es : list MouseEvent) (st : State) :
  isDragging st = false ->
  let st' := fold_left (handleMouseMove c) es st in
  scale st' = scale st /\ position st' = position st
  /\ isDragging st' = false /\ dragStart st' = dragStart st.
Proof.
  revert st. induction es as [| e es IH]; intros st Hidle; cbn [fold_left].
  - auto.
  - destruct (handleMouseMove_frame c st e) as (Hs1 & Hd1 & Ha1).
    assert (Hp1 : position (handleMouseMove c st e) = position st)
      by (rewrite (handleMouseMove_idle c st e Hidle); reflexivity).
    destruct (IH (handleMouseMove c st e)) as (Hs & Hp & Hd & Ha).
    + rewrite Hd1. exact Hidle.
    + cbv zeta in *. rewrite Hs, Hp, Hd, Ha. auto.
Qed.

(** After a release (or a leave, the same handler) no sequence of pointer
    moves pans or zooms: scale and offset stay those of the release. *)
Theorem moves_after_release_do_not_pan (c : option DOMRect) (st : State)
    (es : list MouseEvent) :
  let st' := fold_left (handleMouseMove c) es (handleMouseUp st) in
  scale st' = scale st /\ position st' = position st
  /\ isDragging st' = false.
Proof.
  cbv zeta.
  destruct (fold_moves_idle c es (handleMouseUp st)) as (Hs & Hp & Hd & _);
    [reflexivity |].
  cbv zeta in *. rewrite Hs, Hp, Hd. cbn. auto.
Qed.

(** ** Zooming *)

Lemma handleWheel_scale (rect : DOMRect) (st : State) (e : WheelEvent) :
  scale (handleWheel (Some rect) st e) == wheelScale st e.
Proof.
  unfold handleWheel.
  destruct (Qeq_dec (wheelScale st e) (scale st)) as [Heq | Hne].
  - symmetry. exact Heq.
  - reflexivity.
Qed.

(** One notch is one step of a tenth towards the side the wheel turns,
    stopped at the bound; how far the wheel turned plays no part, and a
    [deltaY] of zero zooms in. *)
Theorem wheel_step (rect : DOMRect) (st : State) (e : WheelEvent) :
  MIN_SCALE <= scale st <= MAX_SCALE ->
  let s' := scale (handleWheel (Some rect) st e) in
  (0 < deltaY e -> s' == Math.max (scale st - (1 # 10)) MIN_SCALE)
  /\ (deltaY e <= 0 -> s' == Math.min (scale st + (1 # 10)) MAX_SCALE).
Proof.
  intros [Hlo Hhi] s'. subst s'.
  split; intros Hd; rewrite handleWheel_scale; unfold wheelScale;
    destruct (wheelDelta_cases e) as [[Hlt ->] | [Hle ->]]; try lra;
    unfold MIN_SCALE, MAX_SCALE in *; minmax.
Qed.


Lemma reportCoords_of_imagePoint (m1 m2 o1 o2 : Point) (s1 s2 : number) :
  imagePoint m1 o1 s1 =.= imagePoint m2 o2 s2 ->
  reportCoords m1 o1 s1 = reportCoords m2 o2 s2.
Proof.
  intros [Hx Hy]. unfold reportCoords.
  rewrite (Math_round_compat _ _ Hx).
  rewrite (Math_round_compat (ORIG_HEIGHT - y (imagePoint m1 o1 s1))
             (ORIG_HEIGHT - y (imagePoint m2 o2 s2)))
    by (rewrite Hy; reflexivity).
  reflexivity.
Qed.

(** ** Where the clamp puts the image *)

Lemma clamp_center (rect : DOMRect) (s : number) :
  let centred := centerOffset rect s in
  clampPosition (Some rect) (x centred) (y centred) s =.= centred.
Proof.
  cbv zeta. split.
  - rewrite clampPosition_x. cbn [centerOffset x].
    unfold spec_clamp_axis, spec_clamp_range, ORIG_WIDTH.
    repeat match goal with
    | |- context [Qlt_le_dec ?a ?b] => destruct (Qlt_le_dec a b)
    end; halves; lra.
  - rewrite clampPosition_y. cbn [centerOffset y].
    unfold spec_clamp_axis, spec_clamp_range, ORIG_HEIGHT.
    repeat match goal with
    | |- context [Qlt_le_dec ?a ?b] => destruct (Qlt_le_dec a b)
    end; halves; lra.
Qed.

(** The mount effect really centres: whatever the size of the surface, the
    clamp leaves the centred offset alone, so the margins (or the overhangs)
    left and right are equal, and so are those above and below. *)
Theorem mountEffect_centres (rect : DOMRect) (st : State) :
  let p := position (mountEffect (Some rect) st) in
  let s := scale (mountEffect (Some rect) st) in
  p =.= centerOffset rect (8 # 10)
  /\ width rect - (x p + ORIG_WIDTH * s) == x p
  /\ height rect - (y p + ORIG_HEIGHT * s) == y p.
Proof.
  cbv zeta. cbn [mountEffect setPosition setScale position scale].
  destruct (clamp_center rect (8 # 10)) as [Hx Hy]. cbv zeta in Hx, Hy.
  split; [split; assumption |].
  rewrite Hx, Hy. cbn [centerOffset x y]. unfold ORIG_WIDTH, ORIG_HEIGHT.
  split; halves; lra.
Qed.

(** ** The published coordinate *)

Lemma Math_round_mono (a b : number) : a <= b -> Math.round a <= Math.round b.
Proof.
  intros Hab. unfold Math.round. rewrite <- Zle_Qle.
  apply Qfloor_resp_le. lra.
Qed.



Lemma clamp_minmax_mono (lo hi a b : number) :
  a <= b -> Math.min (Math.max a lo) hi <= Math.min (Math.max b lo) hi.
Proof. intros Hab. minmax. Qed.

Lemma Qdiv_le_compat (a b s : number) : 0 < s -> a <= b -> a / s <= b / s.
Proof.
  intros Hs Hab. unfold Qdiv. apply Qmult_le_compat_r; [exact Hab |].
  apply Qlt_le_weak, Qinv_lt_0_compat, Hs.
Qed.

(** The report follows the pointer: at a positive scale, moving the pointer
    to the right never lowers the published x, and moving it down never
    raises the published y (the vertical axis is flipped). *)
Theorem report_monotone (m1 m2 offset : Point) (s : number) :
  0 < s ->
  (x m1 <= x m2 ->
   x (reportCoords m1 offset s) <= x (reportCoords m2 offset s))
  /\ (y m1 <= y m2 ->
      y (reportCoords m2 offset s) <= y (reportCoords m1 offset s)).
Proof.
  intros Hs. split; intros Hle; cbn [reportCoords imagePoint x y];
    apply clamp_minmax_mono, Math_round_mono.
  - apply Qdiv_le_compat; [exact Hs | lra].
  - pose proof (Qdiv_le_compat (y m1 - y offset) (y m2 - y offset) s Hs).
    lra.
Qed.

(** The origin of the published coordinates is the image's bottom-left
    corner: at a positive scale the pointer on the image's top-left corner
    reads (0, height), on its bottom-right corner (width, 0), on its
    bottom-left corner (0, 0). *)
Theorem report_corners (offset : Point) (s : number) :
  0 < s ->
  let right := x offset + ORIG_WIDTH * s in
  let bottom := y offset + ORIG_HEIGHT * s in
  reportCoords offset offset s = {| x := 0; y := ORIG_HEIGHT |}
  /\ reportCoords {| x := right; y := bottom |} offset s
     = {| x := ORIG_WIDTH; y := 0 |}
  /\ reportCoords {| x := x offset; y := bottom |} offset s
     = {| x := 0; y := 0 |}.
Proof.
  intros Hs. cbv zeta.
  assert (Hne : ~ s == 0) by lra.
  split; [| split].
  - rewrite (reportCoords_of_imagePoint offset (mkPoint 0 0) offset
               (mkPoint 0 0) s 1); [vm_compute; reflexivity |].
    split; cbn [imagePoint x y]; field; exact Hne.
  - rewrite (reportCoords_of_imagePoint _ (mkPoint ORIG_WIDTH ORIG_HEIGHT)
               offset (mkPoint 0 0) s 1); [vm_compute; reflexivity |].
    split; cbn [imagePoint x y]; field; exact Hne.
  - rewrite (reportCoords_of_imagePoint _ (mkPoint 0 ORIG_HEIGHT)
               offset (mkPoint 0 0) s 1); [vm_compute; reflexivity |].
    split; cbn [imagePoint x y]; field; exact Hne.
Qed.

Lemma clamp_minmax_integer (f lo hi : Z) :
  exists i, Math.min (Math.max (inject_Z f) (inject_Z lo)) (inject_Z hi)
            == inject_Z i.
Proof.
  unfold Math.min, Math.max.
  destruct (Q.max_spec (inject_Z f) (inject_Z lo)) as [[_ Hmx] | [_ Hmx]];
    destruct (Q.min_spec (Qmax (inject_Z f) (inject_Z lo)) (inject_Z hi))
      as [[_ Hmn] | [_ Hmn]];
    [exists lo | exists hi | exists f | exists hi];
    rewrite Hmn, ?Hmx; reflexivity.
Qed.

Lemma reportCoords_integer (m offset : Point) (s : number) :
  exists i j, reportCoords m offset s =.= {| x := inject_Z i; y := inject_Z j |}.
Proof.
  destruct (clamp_minmax_integer
              (Qfloor (x (imagePoint m offset s) + (1 # 2))) 0 3638) as [i Hi].
  destruct (clamp_minmax_integer
              (Qfloor (ORIG_HEIGHT - y (imagePoint m offset s) + (1 # 2)))
              0 4855) as [j Hj].
  exists i, j. split; [exact Hi | exact Hj].
Qed.

Lemma dispatch_published (c : option DOMRect) (st : State) (ev : Event) :
  published (mouseCoords st) -> published (mouseCoords (dispatch c st ev)).
Proof.
  intros Hp. destruct ev as [e | e | e | | |]; cbn [dispatch].
  - destruct (handleWheel_frame c st e) as (-> & _). exact Hp.
  - destruct (handleMouseDown_frame st e) as (_ & _ & ->). exact Hp.
  - destruct c as [rect |]; [| exact Hp].
    rewrite handleMouseMove_mouseCoords. split.
    + apply reportCoords_bounds.
    + apply reportCoords_integer.
  - exact Hp.
  - exact Hp.
  - exact Hp.
Qed.

(** The coordinate on display is at every moment of a session a point of
    the integer grid within [[0, width] x [0, height]]. *)
Theorem mouseCoords_on_grid (c : option DOMRect) (st : State) :
  reachable c st ->
  (0 <= x (mouseCoords st) <= ORIG_WIDTH
   /\ 0 <= y (mouseCoords st) <= ORIG_HEIGHT)
  /\ exists i j, mouseCoords st =.= {| x := inject_Z i; y := inject_Z j |}.
Proof.
  induction 1 as [| st ev _ IH].
  - assert (Hm : mouseCoords (mountEffect c initialState) = mkPoint 0 0)
      by (destruct c; reflexivity).
    rewrite Hm. split.
    + cbn [x y]. unfold ORIG_WIDTH, ORIG_HEIGHT. repeat split; lra.
    + exists 0%Z, 0%Z. apply Point_eq_refl.
  - exact (dispatch_published c st ev IH).
Qed.

(** ** The clamp as a projection *)

Lemma clamp_minmax_nearest (lo hi a v : number) :
  lo <= v -> v <= hi ->
  Qabs (Math.min (Math.max a lo) hi - a) <= Qabs (v - a).
Proof.
  intros Hlo Hhi.
  pose proof (Qle_Qabs (v - a)) as H1.
  pose proof (Qle_Qabs (- (v - a))) as H2. rewrite Qabs_opp in H2.
  apply Qabs_Qle_condition.
  remember (Qabs (v - a)) as d. split; minmax.
Qed.

Lemma clamp_axis_nearest (imageSize viewSize s a v : number) :
  let content := imageSize * s in
  let lo := if Qlt_le_dec content viewSize
            then (viewSize - content) / 2 else viewSize - content in
  let hi := if Qlt_le_dec content viewSize then lo else 0 in
  Math.min (Math.max v lo) hi == v ->
  Qabs (Math.min (Math.max a lo) hi - a) <= Qabs (v - a).
Proof.
  intros content lo hi Hfix.
  pose proof (clamp_min_le_max imageSize viewSize s) as Hle.
  cbv zeta in Hle. fold content in Hle. fold lo in Hle. fold hi in Hle.
  destruct (clamp_minmax_bounds lo hi v Hle) as [Hlo Hhi].
  rewrite Hfix in Hlo, Hhi.
  apply clamp_minmax_nearest; assumption.
Qed.

(** The clamp moves a candidate as little as it can: on each axis no offset
    the clamp accepts (maps to itself) is closer to the candidate than the
    clamped offset is. *)
Theorem clamp_is_nearest (rect : DOMRect) (s : number) (a v : Point) :
  clampPosition (Some rect) (x v) (y v) s =.= v ->
  let p := clampPosition (Some rect) (x a) (y a) s in
  Qabs (x p - x a) <= Qabs (x v - x a)
  /\ Qabs (y p - y a) <= Qabs (y v - y a).
Proof.
  intros [Hx Hy]. cbv zeta. cbn [clampPosition x y] in *. split.
  - apply (clamp_axis_nearest ORIG_WIDTH (width rect) s (x a) (x v)). exact Hx.
  - apply (clamp_axis_nearest ORIG_HEIGHT (height rect) s (y a) (y v)). exact Hy.
Qed.

(** ** The further properties on the scenarios *)

Ltac qle := vm_compute; discriminate.

(** A drag from (500, 400) with a detour, a zoom at the pointer and a second
    detour: the move to (520, 380) commits what a straight move would. *)
Lemma drag_follows_anchor_witness :
  let e0 := pointerAt 500 400 in
  let evs := [MouseMove (pointerAt 900 100); Wheel (notchIn 500 400);
              MouseMove (pointerAt 100 700)] in
  let e := pointerAt 520 380 in
  let stn := fold_left (dispatch (Some surface)) evs
               (handleMouseDown scenarioA e0) in
  (button e0 = 0%Z /\ forallb keepsDrag evs = true)
  /\ position (handleMouseMove (Some surface) stn e)
     = clampPosition (Some surface)
         (clientX e - (clientX e0 - x (position scenarioA)))
         (clientY e - (clientY e0 - y (position scenarioA)))
         (scale stn).
Proof.
  intros e0 evs e stn.
  split; [split; reflexivity |].
  exact (drag_follows_anchor surface scenarioA e0 evs e eq_refl eq_refl).
Defined.

Lemma wheel_step_witness :
  let e := notchIn 500 400 in
  let s' := scale (handleWheel (Some surface) scenarioA e) in
  (MIN_SCALE <= scale scenarioA <= MAX_SCALE)
  /\ ((0 < deltaY e -> s' == Math.max (scale scenarioA - (1 # 10)) MIN_SCALE)
      /\ (deltaY e <= 0 ->
          s' == Math.min (scale scenarioA + (1 # 10)) MAX_SCALE))
  /\ s' == 9 # 10.
Proof.
  intros e s'.
  assert (Hrange : MIN_SCALE <= scale scenarioA <= MAX_SCALE) by (split; qle).
  split; [exact Hrange |].
  split; [exact (wheel_step surface scenarioA e Hrange) | qcompute].
Defined.


Lemma report_monotone_witness :
  let m1 := mkPoint 500 400 in
  let m2 := mkPoint 520 420 in
  let o := position scenarioA in
  let s := scale scenarioA in
  (0 < s /\ x m1 <= x m2 /\ y m1 <= y m2)
  /\ x (reportCoords m1 o s) <= x (reportCoords m2 o s)
  /\ y (reportCoords m2 o s) <= y (reportCoords m1 o s).
Proof.
  intros m1 m2 o s.
  assert (Hs : 0 < s) by qcompute.
  assert (Hx : x m1 <= x m2) by qle.
  assert (Hy : y m1 <= y m2) by qle.
  destruct (report_monotone m1 m2 o s Hs) as [Hmx Hmy].
  split; [repeat (split; [assumption |]); exact Hy |].
  split; [exact (Hmx Hx) | exact (Hmy Hy)].
Defined.

Lemma report_corners_witness :
  let o := position scenarioA in
  let s := scale scenarioA in
  0 < s
  /\ reportCoords o o s = {| x := 0; y := ORIG_HEIGHT |}
  /\ reportCoords {| x := x o + ORIG_WIDTH * s; y := y o + ORIG_HEIGHT * s |} o s
     = {| x := ORIG_WIDTH; y := 0 |}
  /\ reportCoords {| x := x o; y := y o + ORIG_HEIGHT * s |} o s
     = {| x := 0; y := 0 |}.
Proof.
  intros o s.
  assert (Hs : 0 < s) by qcompute.
  split; [exact Hs | exact (report_corners o s Hs)].
Defined.

Lemma mouseCoords_on_grid_witness :
  reachable (Some surface) scenarioD
  /\ ((0 <= x (mouseCoords scenarioD) <= ORIG_WIDTH
       /\ 0 <= y (mouseCoords scenarioD) <= ORIG_HEIGHT)
      /\ exists i j,
           mouseCoords scenarioD =.= {| x := inject_Z i; y := inject_Z j |}).
Proof.
  assert (Hreach : reachable (Some surface) scenarioD) by apply run_reachable.
  split; [exact Hreach | exact (mouseCoords_on_grid (Some surface) scenarioD Hreach)].
Defined.

(** A candidate (100, 100) right of and below the allowed range is clamped
    to (0, 0), and the centred offset, which the clamp accepts, is farther
    from it. *)
Lemma clamp_is_nearest_witness :
  let s := 8 # 10 in
  let a := mkPoint 100 100 in
  let v := position scenarioA in
  let p := clampPosition (Some surface) (x a) (y a) s in
  clampPosition (Some surface) (x v) (y v) s =.= v
  /\ (Qabs (x p - x a) <= Qabs (x v - x a)
      /\ Qabs (y p - y a) <= Qabs (y v - y a))
  /\ p =.= {| x := 0; y := 0 |}.
Proof.
  intros s a v p.
  assert (Hfix : clampPosition (Some surface) (x v) (y v) s =.= v)
    by (split; qcompute).
  split; [exact Hfix |].
  split; [exact (clamp_is_nearest surface s a v Hfix) | split; qcompute].
Defined.
